(** * taichi: the memory pool and its request-queue daemon

    A shallow embedding of [taichi/memory_pool.cpp]: the cross-domain
    read [MemoryPool::fetch], the growing list of allocators behind
    [MemoryPool::allocate], the polling loop [MemoryPool::daemon] and the
    shutdown handshake of [MemoryPool::terminate] and [~MemoryPool].

    Addresses, sizes and counters are integers ([Z]); the null pointer is
    the address [0].  Memory is a finite map from addresses to bytes.
    All pool operations run under the one mutex [mut], so an execution is
    a sequence of critical sections; the daemon contributes one critical
    section per wake. *)

From Stdlib Require Import ZArith Lia Bool.
From stdpp Require Import base option list gmap.

Local Open Scope Z_scope.

(** ** Configuration read through [prog->config.arch] *)

(** The enumeration is declared in another header; this file only names
    its member [cuda] and treats every other target alike. *)
Inductive Arch : Set := x86_64 | cuda.

Global Instance Arch_eq_dec : EqDecision Arch.
Proof. solve_decision. Defined.

Record CompileConfig : Set := { arch : Arch }.
Record Program : Set := { config : CompileConfig }.

(** ** Memory of the two execution domains *)

(** One byte (a value in [0, 256)) per mapped address. *)
Record Machine : Type := {
  host_mem : gmap Z Z;
  device_mem : gmap Z Z
}.

(** A fixed-width integer type [T] of the generic [fetch<T>]. *)
Record scalar_type : Set := { sizeof : nat; is_signed : bool }.

Definition int32_t : scalar_type := {| sizeof := 4; is_signed := true |}.

(** The [n] bytes stored from [addr] on, when all of them are mapped. *)
Fixpoint read_bytes (m : gmap Z Z) (addr : Z) (n : nat) : option (list Z) :=
  match n with
  | O => Some []
  | S k =>
      match m !! addr, read_bytes m (addr + 1) k with
      | Some b, Some bs => Some (b :: bs)
      | _, _ => None
      end
  end.

Fixpoint le_combine (bs : list Z) : Z :=
  match bs with
  | [] => 0
  | b :: rest => b mod 256 + 256 * le_combine rest
  end.

(** The value of type [T] that a little-endian byte sequence denotes. *)
Definition decode (T : scalar_type) (bs : list Z) : Z :=
  let bits := 8 * Z.of_nat (length bs) in
  let u := le_combine bs in
  if is_signed T && (2 ^ (bits - 1) <=? u) then u - 2 ^ bits else u.

(** The values that an object of type [T] can hold. *)
Definition in_range (T : scalar_type) (v : Z) : Prop :=
  let bits := 8 * Z.of_nat (sizeof T) in
  if is_signed T
  then - 2 ^ (bits - 1) <= v < 2 ^ (bits - 1)
  else 0 <= v < 2 ^ bits.

(** Modelled from the spec: the macros [TC_NOT_IMPLEMENTED] and
    [TC_ASSERT] and the check [check_cuda_errors] are defined in headers
    that are not part of this file.  Each raises a fatal error, which
    ends the operation at once with a diagnostic of its own kind. *)
Inductive fatal : Set :=
| NotImplemented      (* TC_NOT_IMPLEMENTED *)
| CudaFailure         (* check_cuda_errors on a failing runtime call *)
| InvalidRead         (* dereference of an unmapped host address *)
| AssertionFailed.    (* TC_ASSERT *)

Inductive fetched : Set :=
| Value (v : Z)
| Failed (why : fatal).

Global Instance fatal_eq_dec : EqDecision fatal.
Proof. solve_decision. Defined.

Global Instance fetched_eq_dec : EqDecision fetched.
Proof. solve_decision. Defined.

(** [*(T * )ptr] on the host. *)
Definition dereference (M : Machine) (T : scalar_type) (ptr : Z) : fetched :=
  match read_bytes (host_mem M) ptr (sizeof T) with
  | Some bs => Value (decode T bs)
  | None => Failed InvalidRead
  end.

(** [check_cuda_errors(cudaMemcpy(&ret, ptr, count, cudaMemcpyDeviceToHost))]:
    the call returns once the [count] bytes are in host memory; an
    unreadable device range is reported by the runtime and is fatal. *)
Definition cudaMemcpy_DeviceToHost (M : Machine) (T : scalar_type)
    (ptr : Z) (count : nat) : fetched :=
  match read_bytes (device_mem M) ptr count with
  | Some bs => Value (decode T bs)
  | None => Failed CudaFailure
  end.

(** What [memory_pool.h] and the build supply to this file: the flag of
    [#if TLANG_WITH_CUDA], the constant [default_allocator_size], and the
    type and position of the field [tail] of [MemRequestQueue]. *)
Class Declarations : Set := {
  TLANG_WITH_CUDA : bool;
  default_allocator_size : Z;
  tail_type : scalar_type;
  tail_offset : Z
}.

(** [template <typename T> T MemoryPool::fetch(void *ptr)].  With the
    accelerator as target and no accelerator support in the build the
    body is [TC_NOT_IMPLEMENTED], which raises a fatal error. *)
Definition fetch `{Declarations} (prog : Program) (M : Machine)
    (T : scalar_type) (ptr : Z) : fetched :=
  if decide (arch (config prog) = cuda) then
    if TLANG_WITH_CUDA
    then cudaMemcpy_DeviceToHost M T ptr (sizeof T)
    else Failed NotImplemented
  else dereference M T ptr.

(** ** The allocators owned by the pool *)

(** The class [UnifiedAllocator] is defined in another file.  The pool
    uses its constructor [UnifiedAllocator(size, cuda)] and its method
    [allocate(size, alignment)], which returns a pointer or [nullptr]
    and may change the allocator.  [serial] counts the constructions, so
    that each may obtain a region of its own. *)
Class UnifiedAllocatorOps (UA : Type) : Type := {
  ua_new : nat -> Z -> bool -> UA;
  ua_allocate : UA -> Z -> Z -> UA * Z
}.

(** ** The pool *)

Record MemoryPool (UA : Type) : Type := mkMemoryPool {
  allocators : list UA;
  terminating : bool;
  killed : bool;
  processed_tail : Z;
  prog : Program;
  queue : Z;                (* MemRequestQueue *queue; 0 is nullptr *)
  th_joinable : bool        (* th->joinable() *)
}.

Arguments mkMemoryPool {UA}.
Arguments allocators {UA}.
Arguments terminating {UA}.
Arguments killed {UA}.
Arguments processed_tail {UA}.
Arguments prog {UA}.
Arguments queue {UA}.
Arguments th_joinable {UA}.

Section Pool.

Context `{Declarations} {UA : Type} `{UnifiedAllocatorOps UA}.

Definition with_allocators (l : list UA) (p : MemoryPool UA) :=
  mkMemoryPool l (terminating p) (killed p) (processed_tail p) (prog p)
    (queue p) (th_joinable p).

Definition with_terminating (b : bool) (p : MemoryPool UA) :=
  mkMemoryPool (allocators p) b (killed p) (processed_tail p) (prog p)
    (queue p) (th_joinable p).

Definition with_killed (b : bool) (p : MemoryPool UA) :=
  mkMemoryPool (allocators p) (terminating p) b (processed_tail p) (prog p)
    (queue p) (th_joinable p).

Definition with_processed_tail (n : Z) (p : MemoryPool UA) :=
  mkMemoryPool (allocators p) (terminating p) (killed p) n (prog p)
    (queue p) (th_joinable p).

Definition with_queue (q : Z) (p : MemoryPool UA) :=
  mkMemoryPool (allocators p) (terminating p) (killed p) (processed_tail p)
    (prog p) q (th_joinable p).

Definition with_th_joinable (b : bool) (p : MemoryPool UA) :=
  mkMemoryPool (allocators p) (terminating p) (killed p) (processed_tail p)
    (prog p) (queue p) b.

(** [MemoryPool::MemoryPool(Program *prog)]; the thread it starts is
    joinable from then on. *)
Definition MemoryPool_new (pr : Program) : MemoryPool UA :=
  {| allocators := [];
     terminating := false;
     killed := false;
     processed_tail := 0;
     prog := pr;
     queue := 0;
     th_joinable := true |}.

(** [void MemoryPool::set_queue(MemRequestQueue *queue)] *)
Definition set_queue (q : Z) (p : MemoryPool UA) : MemoryPool UA :=
  with_queue q p.

(** [allocators.back()->allocate(size, alignment)]: the call on the
    last element, which is updated in place. *)
Definition allocate_from_back (size alignment : Z) (l : list UA)
    : list UA * Z :=
  match last l with
  | Some a =>
      let '(a', ret) := ua_allocate a size alignment in
      (<[pred (length l) := a']> l, ret)
  | None => (l, 0)
  end.

(** [TC_ASSERT(ret); return ret;] *)
Definition asserted (ret : Z) : fetched :=
  if decide (ret = 0) then Failed AssertionFailed else Value ret.

(** [void *MemoryPool::allocate(std::size_t size, std::size_t alignment)].
    The result is the pointer returned, or the fatal error of
    [TC_ASSERT(ret)]. *)
Definition allocate (size alignment : Z) (p : MemoryPool UA)
    : MemoryPool UA * fetched :=
  let use_cuda := bool_decide (arch (config (prog p)) = cuda) in
  let '(l1, ret1) :=
    if decide (allocators p = [])
    then (allocators p, 0)
    else allocate_from_back size alignment (allocators p) in
  let '(l2, ret2) :=
    if decide (ret1 = 0) then
      let new_buffer_size := Z.max size default_allocator_size in
      let l := l1 ++ [ua_new (length l1) new_buffer_size use_cuda] in
      allocate_from_back size alignment l
    else (l1, ret1) in
  (with_allocators l2 p, asserted ret2).

(** *** The daemon *)

(** What an execution leaves behind for an observer. *)
Inductive event : Set :=
| ev_fetch (addr : Z) (got : fetched)
                           (* fetch<tail_type>(&queue->tail) and its result *)
| ev_processing (i : Z)    (* TC_INFO("Processing memory request {}", i) *)
| ev_terminate             (* a call of terminate() *)
| ev_join.                 (* a call of th->join() *)

Global Instance event_eq_dec : EqDecision event.
Proof. solve_decision. Defined.

(** The requests announced as processed, in order. *)
Definition processed (tr : list event) : list Z :=
  omap (fun e => match e with ev_processing i => Some i | _ => None end) tr.

(** The values of [tail] that the daemon read, in order. *)
Definition tails (tr : list event) : list Z :=
  omap (fun e => match e with ev_fetch _ (Value t) => Some t | _ => None end)
    tr.

(** The last element of [l], or [lo] when [l] is empty. *)
Fixpoint latest (lo : Z) (l : list Z) : Z :=
  match l with
  | [] => lo
  | t :: rest => latest t rest
  end.

(** [l] starts at [lo] or above and never decreases. *)
Fixpoint non_decreasing_from (lo : Z) (l : list Z) : Prop :=
  match l with
  | [] => True
  | t :: rest => lo <= t /\ non_decreasing_from t rest
  end.

(** How many times [terminate()] and [th->join()] were called. *)
Definition terminate_calls (tr : list event) : nat :=
  length (filter (fun e => e = ev_terminate) tr).

Definition join_calls (tr : list event) : nat :=
  length (filter (fun e => e = ev_join) tr).

(** How one pass through the body of [while (1)] ends. *)
Inductive iteration : Type :=
| Continue (p : MemoryPool UA) (evs : list event)
| Break (p : MemoryPool UA)
| Abort (evs : list event) (why : fatal).

(** The body of the loop of [MemoryPool::daemon], from the point where
    the lock is taken. *)
Definition daemon_iteration (M : Machine) (p : MemoryPool UA) : iteration :=
  if decide (queue p = 0) then Continue p []
  else if terminating p then Break (with_killed true p)
  else
    let addr := queue p + tail_offset in
    match fetch (prog p) M tail_type addr with
    | Failed why => Abort [ev_fetch addr (Failed why)] why
    | Value tail =>
        if decide (tail > processed_tail p) then
          let i := processed_tail p in
          Continue (with_processed_tail (processed_tail p + 1) p)
                   [ev_fetch addr (Value tail); ev_processing i]
        else Continue p [ev_fetch addr (Value tail)]
    end.

(** How the daemon function stands after finitely many wakes. *)
Inductive daemon_state : Type :=
| Returned (p : MemoryPool UA) (evs : list event)   (* left through [break] *)
| Looping (p : MemoryPool UA) (evs : list event)    (* back at [while (1)] *)
| Crashed (evs : list event) (why : fatal).

(** [void MemoryPool::daemon()], run against the memory contents found
    at its successive wakes while no other thread touches the pool;
    [evs] collects what it has emitted so far. *)
Fixpoint daemon (Ms : list Machine) (p : MemoryPool UA) (evs : list event)
    : daemon_state :=
  match Ms with
  | [] => Looping p evs
  | M :: rest =>
      match daemon_iteration M p with
      | Continue p' evs' => daemon rest p' (evs ++ evs')
      | Break p' => Returned p' evs
      | Abort evs' why => Crashed (evs ++ evs') why
      end
  end.

(** *** The process: the pool, its daemon thread and what was observed *)

Inductive thread_status : Set := Running | Finished.

Record process : Type := mkProcess {
  pool : MemoryPool UA;
  daemon_thread : thread_status;
  aborted : option fatal;     (* set once a fatal error has been raised *)
  trace : list event
}.

(** The state right after the constructor. *)
Definition boot (pr : Program) : process :=
  {| pool := MemoryPool_new pr; daemon_thread := Running;
     aborted := None; trace := [] |}.

(** The critical sections that threads execute under [mut]. *)
Inductive action : Type :=
| Wake (M : Machine)               (* one wake of the daemon *)
| SetQueue (q : Z)                 (* set_queue(q) *)
| Allocate (size alignment : Z)    (* allocate(size, alignment) *)
| RequestTermination.              (* the locked block of terminate() *)

Definition wake (M : Machine) (s : process) : process :=
  match daemon_thread s with
  | Finished => s
  | Running =>
      match daemon_iteration M (pool s) with
      | Continue p evs => mkProcess p Running None (trace s ++ evs)
      | Break p => mkProcess p Finished None (trace s)
      | Abort evs why =>
          mkProcess (pool s) Running (Some why) (trace s ++ evs)
      end
  end.

Definition step (s : process) (a : action) : process :=
  match aborted s with
  | Some _ => s
  | None =>
      match a with
      | Wake M => wake M s
      | SetQueue q =>
          mkProcess (set_queue q (pool s)) (daemon_thread s) None (trace s)
      | Allocate size alignment =>
          let '(p, r) := allocate size alignment (pool s) in
          mkProcess p (daemon_thread s)
            (match r with Value _ => None | Failed why => Some why end)
            (trace s)
      | RequestTermination =>
          mkProcess (with_terminating true (pool s)) (daemon_thread s)
            None (trace s)
      end
  end.

Definition run (acts : list action) (s : process) : process :=
  foldl step s acts.

(** *** Shutdown *)

(** How a call that may block ends. *)
Inductive ending : Set :=
| Returns          (* the call returns *)
| Throws           (* std::system_error out of join() *)
| Aborts           (* a fatal error ended the process *)
| Blocks.          (* still waiting when the schedule is exhausted *)

(** The wait inside [th->join()]: the caller sleeps while the other
    threads run the critical sections of [sched], until the daemon
    function has returned. *)
Fixpoint await_daemon (sched : list action) (s : process)
    : process * ending :=
  match aborted s with
  | Some _ => (s, Aborts)
  | None =>
      match daemon_thread s with
      | Finished => (s, Returns)
      | Running =>
          match sched with
          | [] => (s, Blocks)
          | a :: rest => await_daemon rest (step s a)
          end
      end
  end.

Definition emit (e : event) (s : process) : process :=
  mkProcess (pool s) (daemon_thread s) (aborted s) (trace s ++ [e]).

(** [th->join()] of [std::thread]: it raises [std::system_error] if the
    thread is not joinable; else it waits for the end of the thread,
    after which the thread is no longer joinable. *)
Definition join (sched : list action) (s : process) : process * ending :=
  let s := emit ev_join s in
  if th_joinable (pool s) then
    match await_daemon sched s with
    | (s', Returns) =>
        (mkProcess (with_th_joinable false (pool s')) (daemon_thread s')
           (aborted s') (trace s'), Returns)
    | other => other
    end
  else (s, Throws).

(** [void MemoryPool::terminate()]: the locked assignment to
    [terminating], then [th->join()], then [TC_ASSERT(killed)]. *)
Definition terminate (sched : list action) (s : process)
    : process * ending :=
  let s := step (emit ev_terminate s) RequestTermination in
  match aborted s with
  | Some _ => (s, Aborts)
  | None =>
      match join sched s with
      | (s', Returns) =>
          if killed (pool s') then (s', Returns)
          else (mkProcess (pool s') (daemon_thread s')
                  (Some AssertionFailed) (trace s'), Aborts)
      | other => other
      end
  end.

(** The body of [MemoryPool::~MemoryPool()]; the destruction of the
    members that follows it is not part of the model. *)
Definition destroy (sched : list action) (s : process) : process * ending :=
  if negb (killed (pool s)) then terminate sched s else (s, Returns).

(** *** Predicates on executions *)

(** The shapes a critical section can have, seen from the counter and
    the trace. *)
Inductive advance (s s' : process) : Prop :=
| adv_silent :
    trace s' = trace s ->
    processed_tail (pool s') = processed_tail (pool s) ->
    advance s s'
| adv_failed addr why :
    trace s' = trace s ++ [ev_fetch addr (Failed why)] ->
    processed_tail (pool s') = processed_tail (pool s) ->
    advance s s'
| adv_nothing_new addr tail :
    trace s' = trace s ++ [ev_fetch addr (Value tail)] ->
    tail <= processed_tail (pool s) ->
    processed_tail (pool s') = processed_tail (pool s) ->
    advance s s'
| adv_one addr tail :
    trace s' = trace s
               ++ [ev_fetch addr (Value tail);
                   ev_processing (processed_tail (pool s))] ->
    processed_tail (pool s) < tail ->
    processed_tail (pool s') = processed_tail (pool s) + 1 ->
    advance s s'.

(** The counter stays at or below the latest value of [tail] read, as
    long as the values read start at 0 or above and never decrease. *)
Definition bounded_by_tail (s : process) : Prop :=
  processed_tail (pool s) <= latest 0 (tails (trace s)).

(** [killed] is set only by the daemon as it leaves its loop. *)
Definition killed_by_daemon (s : process) : Prop :=
  killed (pool s) = true -> daemon_thread s = Finished.

End Pool.

(** ** The bump allocator *)

(** Modelled from the spec: the class [UnifiedAllocator], whose source
    file is not part of this development.  It owns one contiguous buffer
    of fixed capacity and residency and an allocation cursor.
    [allocate] computes the next aligned offset from the cursor; if the
    range fits within the capacity it advances the cursor and returns
    the base pointer of the range, otherwise it returns null. *)
Record BufferHandle : Set := mkBufferHandle {
  base : Z;
  on_accelerator : bool;
  cursor : Z;
  capacity : Z
}.

(** Modelled from the spec: the backing memory provider, which supplies
    the region of the [serial]-th buffer, its base address and its
    capacity, for a requested capacity and a residency.  The spec asks
    for a region of at least the requested capacity; this is a
    hypothesis of the theorems that need it.  The model covers the
    executions in which every region asked for is supplied. *)
Class BackingMemory : Set := {
  region_base : nat -> Z -> bool -> Z;
  region_capacity : nat -> Z -> bool -> Z
}.

(** Modelled from the spec: the next offset at or after [offset] that is
    a multiple of [alignment]. *)
Definition align_up (offset alignment : Z) : Z :=
  (offset + alignment - 1) / alignment * alignment.

(** Modelled from the spec: construction takes the requested capacity
    and the residency flag and obtains one region for them, whose
    capacity becomes the capacity of the buffer. *)
Definition bump_new `{BackingMemory} (serial : nat) (size : Z) (cuda : bool)
    : BufferHandle :=
  {| base := region_base serial size cuda;
     on_accelerator := cuda;
     cursor := 0;
     capacity := region_capacity serial size cuda |}.

(** Modelled from the spec: [allocate(size, alignment) -> pointer | null]
    of the bump allocator. *)
Definition bump_allocate (b : BufferHandle) (size alignment : Z)
    : BufferHandle * Z :=
  let offset := align_up (cursor b) alignment in
  if decide (offset + size <= capacity b)
  then (mkBufferHandle (base b) (on_accelerator b) (offset + size)
          (capacity b),
        base b + offset)
  else (b, 0).

Global Instance bump_allocator `{BackingMemory}
    : UnifiedAllocatorOps BufferHandle :=
  {| ua_new := bump_new; ua_allocate := bump_allocate |}.





(** ** Concrete builds and machines *)

(** A host-only build with the 1 MB buffers of the test scenario and a
    queue whose [tail] is a 32-bit integer at offset 0. *)
Definition host_build : Declarations :=
  {| TLANG_WITH_CUDA := false;
     default_allocator_size := Z.shiftl 1 20;
     tail_type := int32_t;
     tail_offset := 0 |}.

Definition cuda_build : Declarations :=
  {| TLANG_WITH_CUDA := true;
     default_allocator_size := Z.shiftl 1 20;
     tail_type := int32_t;
     tail_offset := 0 |}.

Definition host_program : Program := {| config := {| arch := x86_64 |} |}.
Definition cuda_program : Program := {| config := {| arch := cuda |} |}.

(** Regions 4 GB apart, the first at address 4096, each of exactly the
    capacity asked for. *)
Definition sparse_regions : BackingMemory :=
  {| region_base := fun serial _ _ => 4096 + Z.of_nat serial * 2 ^ 32;
     region_capacity := fun _ size _ => size |}.


(** Stores the 32-bit little-endian value [v] at [addr]. *)
Definition store32 (addr v : Z) (m : gmap Z Z) : gmap Z Z :=
  <[addr := Z.land v 255]>
    (<[addr + 1 := Z.land (Z.shiftr v 8) 255]>
      (<[addr + 2 := Z.land (Z.shiftr v 16) 255]>
        (<[addr + 3 := Z.land (Z.shiftr v 24) 255]> m))).

(** A machine whose host memory holds a queue at [addr] with the given
    [tail], and whose device memory is empty. *)
Definition host_queue (addr tail : Z) : Machine :=
  {| host_mem := store32 addr tail ∅; device_mem := ∅ |}.

Definition device_queue (addr tail : Z) : Machine :=
  {| host_mem := ∅; device_mem := store32 addr tail ∅ |}.

(** The allocators of the examples: bump allocators on [sparse_regions]. *)
Definition host_ops : UnifiedAllocatorOps BufferHandle :=
  @bump_allocator sparse_regions.

(** A fresh pool of the host build, and the same pool once a queue at
    address 1000 is installed. *)
Definition fresh_process : @process BufferHandle := boot host_program.

Definition installed_process : @process BufferHandle :=
  @step host_build BufferHandle host_ops fresh_process (SetQueue 1000).

(** An execution that swaps queues: two requests are processed on the
    queue at 1000, then the queue at 2000, whose [tail] is 0, is
    installed and read. *)
Definition swap_execution : list action :=
  [SetQueue 1000; Wake (host_queue 1000 2); Wake (host_queue 1000 2);
   SetQueue 2000; Wake (host_queue 2000 0)].

(** * Properties *)

(** ** The cross-domain read *)

Lemma read_bytes_length m n : forall addr bs,
  read_bytes m addr n = Some bs -> length bs = n.
Proof.
  induction n as [|n IH]; intros addr bs; simpl.
  - intros [= <-]. reflexivity.
  - destruct (m !! addr); [|discriminate].
    destruct (read_bytes m (addr + 1) n) eqn:E; [|discriminate].
    intros [= <-]. simpl. f_equal. eauto.
Qed.

Lemma le_combine_bound (bs : list Z) :
  0 <= le_combine bs < 2 ^ (8 * Z.of_nat (length bs)).
Proof.
  induction bs as [|b bs IH].
  - simpl. lia.
  - cbn [le_combine length].
    replace (8 * Z.of_nat (S (length bs)))
      with (8 + 8 * Z.of_nat (length bs)) by lia.
    rewrite Z.pow_add_r by lia.
    change (2 ^ 8) with 256.
    pose proof (Z.mod_pos_bound b 256 ltac:(lia)). lia.
Qed.

Lemma decode_in_range (T : scalar_type) (bs : list Z) :
  length bs = sizeof T -> (0 < sizeof T)%nat -> in_range T (decode T bs).
Proof.
  intros Hlen Hpos. unfold decode, in_range. rewrite Hlen.
  pose proof (le_combine_bound bs) as Hb. rewrite Hlen in Hb.
  set (bits := 8 * Z.of_nat (sizeof T)) in *.
  assert (Hhalf : 2 ^ bits = 2 * 2 ^ (bits - 1)).
  { replace bits with (Z.succ (bits - 1)) at 1 by lia.
    apply Z.pow_succ_r. lia. }
  destruct (is_signed T); simpl; [|lia].
  destruct (Z.leb_spec (2 ^ (bits - 1)) (le_combine bs)); lia.
Qed.

(** A value obtained through [fetch<T>] is a value of type [T]. *)
Lemma fetch_in_range `{Declarations} (pr : Program) (M : Machine)
    (T : scalar_type) (ptr v : Z) :
  (0 < sizeof T)%nat -> fetch pr M T ptr = Value v -> in_range T v.
Proof.
  intros Hpos. unfold fetch, cudaMemcpy_DeviceToHost, dereference.
  destruct (decide _); [destruct TLANG_WITH_CUDA; [|discriminate]|];
    destruct (read_bytes _ ptr (sizeof T)) as [bs|] eqn:Hread;
    try discriminate;
    intros [= <-]; apply decode_in_range; try assumption;
    eapply read_bytes_length; eassumption.
Qed.

Example fetch_host_queue :
  @fetch host_build host_program (host_queue 1000 3) int32_t 1000 = Value 3.
Proof. vm_compute. reflexivity. Qed.

Example fetch_host_negative :
  @fetch host_build host_program (host_queue 1000 (-2)) int32_t 1000
  = Value (-2).
Proof. vm_compute. reflexivity. Qed.

Example fetch_device_queue :
  @fetch cuda_build cuda_program (device_queue 1000 70000) int32_t 1000
  = Value 70000.
Proof. vm_compute. reflexivity. Qed.

(** C5.  [fetch<T>] on a host target is the plain dereference of the
    address: the value that the [sizeof(T)] bytes of host memory at
    [ptr] denote; on the accelerator with accelerator support compiled
    in it is the device-to-host copy of [sizeof(T)] bytes, the value
    that these bytes of device memory denote, and fatal when the copy
    fails; on the accelerator without that support it raises the "not
    implemented" error and yields no value. *)
Theorem fetch_by_target `{Declarations} (pr : Program) (M : Machine)
    (T : scalar_type) (ptr : Z) :
  (arch (config pr) <> cuda ->
     fetch pr M T ptr =
       match read_bytes (host_mem M) ptr (sizeof T) with
       | Some bs => Value (decode T bs)
       | None => Failed InvalidRead
       end) /\
  (arch (config pr) = cuda -> TLANG_WITH_CUDA = true ->
     fetch pr M T ptr =
       match read_bytes (device_mem M) ptr (sizeof T) with
       | Some bs => Value (decode T bs)
       | None => Failed CudaFailure
       end) /\
  (arch (config pr) = cuda -> TLANG_WITH_CUDA = false ->
     fetch pr M T ptr = Failed NotImplemented /\
     forall v, fetch pr M T ptr <> Value v).
Proof.
  unfold fetch, dereference, cudaMemcpy_DeviceToHost. split; [|split].
  - intros Hhost. destruct (decide _) as [E|_]; [contradiction|reflexivity].
  - intros Hdev Hcuda. rewrite decide_True by assumption.
    rewrite Hcuda. reflexivity.
  - intros Hdev Hnone. rewrite decide_True by assumption. rewrite Hnone.
    split; [reflexivity|]. intros v. discriminate.
Qed.

Lemma fetch_by_target_witness :
  @fetch host_build host_program (host_queue 1000 3) int32_t 1000
    = Value 3 /\
  @fetch host_build host_program (host_queue 1000 (-2)) int32_t 1000
    = Value (-2) /\
  @fetch host_build host_program (host_queue 1000 3) int32_t 2000
    = Failed InvalidRead /\
  @fetch cuda_build cuda_program (device_queue 1000 70000) int32_t 1000
    = Value 70000 /\
  @fetch cuda_build cuda_program (host_queue 1000 3) int32_t 1000
    = Failed CudaFailure /\
  @fetch host_build cuda_program (device_queue 1000 3) int32_t 1000
    = Failed NotImplemented.
Proof.
  split; [|split; [|split; [|split; [|split]]]].
  - pose proof (@fetch_by_target host_build host_program (host_queue 1000 3)
                  int32_t 1000) as (Hh & _ & _).
    rewrite Hh by discriminate. vm_compute. reflexivity.
  - pose proof (@fetch_by_target host_build host_program
                  (host_queue 1000 (-2)) int32_t 1000) as (Hh & _ & _).
    rewrite Hh by discriminate. vm_compute. reflexivity.
  - pose proof (@fetch_by_target host_build host_program (host_queue 1000 3)
                  int32_t 2000) as (Hh & _ & _).
    rewrite Hh by discriminate. vm_compute. reflexivity.
  - pose proof (@fetch_by_target cuda_build cuda_program
                  (device_queue 1000 70000) int32_t 1000) as (_ & Hc & _).
    rewrite Hc by reflexivity. vm_compute. reflexivity.
  - pose proof (@fetch_by_target cuda_build cuda_program
                  (host_queue 1000 3) int32_t 1000) as (_ & Hc & _).
    rewrite Hc by reflexivity. vm_compute. reflexivity.
  - pose proof (@fetch_by_target host_build cuda_program
                  (device_queue 1000 3) int32_t 1000) as (_ & _ & Hn).
    apply Hn; reflexivity.
Defined.

(** ** Allocation *)

Section AllocateProperties.

Context `{Declarations} {UA : Type} `{UnifiedAllocatorOps UA}.

Lemma allocate_from_back_snoc (l : list UA) (a : UA) (size alignment : Z) :
  allocate_from_back size alignment (l ++ [a])
  = (l ++ [(ua_allocate a size alignment).1],
     (ua_allocate a size alignment).2).
Proof.
  unfold allocate_from_back. rewrite last_snoc.
  destruct (ua_allocate a size alignment) as [a' ret]. simpl.
  f_equal. rewrite length_app. simpl.
  replace (pred (length l + 1)) with (length l + 0)%nat by lia.
  rewrite insert_app_r. reflexivity.
Qed.

Lemma asserted_value (ret : Z) : ret <> 0 -> asserted ret = Value ret.
Proof. intros Hret. unfold asserted. rewrite decide_False; auto. Qed.

Lemma asserted_cases (ret : Z) :
  (ret <> 0 /\ asserted ret = Value ret) \/
  (ret = 0 /\ asserted ret = Failed AssertionFailed).
Proof. unfold asserted. destruct (decide (ret = 0)); auto. Qed.

(** The three paths through [allocate], as equations. *)
Lemma allocate_empty (p : MemoryPool UA) (size alignment : Z) :
  allocators p = [] ->
  let a := ua_new 0 (Z.max size default_allocator_size)
             (bool_decide (arch (config (prog p)) = cuda)) in
  allocate size alignment p
  = (with_allocators [(ua_allocate a size alignment).1] p,
     asserted (ua_allocate a size alignment).2).
Proof.
  intros Hnil a. unfold allocate. rewrite Hnil.
  rewrite decide_True by reflexivity.
  rewrite decide_True by reflexivity.
  change (length (@nil UA)) with 0%nat. fold a.
  rewrite (allocate_from_back_snoc [] a). reflexivity.
Qed.

Lemma allocate_hit (p : MemoryPool UA) (size alignment : Z) l a :
  allocators p = l ++ [a] ->
  (ua_allocate a size alignment).2 <> 0 ->
  allocate size alignment p
  = (with_allocators (l ++ [(ua_allocate a size alignment).1]) p,
     Value (ua_allocate a size alignment).2).
Proof.
  intros Hl Hret. unfold allocate. rewrite Hl.
  rewrite decide_False by (destruct l; discriminate).
  rewrite allocate_from_back_snoc.
  rewrite decide_False by assumption.
  rewrite asserted_value by assumption. reflexivity.
Qed.

Lemma allocate_miss (p : MemoryPool UA) (size alignment : Z) l a :
  allocators p = l ++ [a] ->
  (ua_allocate a size alignment).2 = 0 ->
  let b := ua_new (S (length l)) (Z.max size default_allocator_size)
             (bool_decide (arch (config (prog p)) = cuda)) in
  allocate size alignment p
  = (with_allocators
       (l ++ [(ua_allocate a size alignment).1;
              (ua_allocate b size alignment).1]) p,
     asserted (ua_allocate b size alignment).2).
Proof.
  intros Hl Hret b. unfold allocate. rewrite Hl.
  rewrite decide_False by (destruct l; discriminate).
  rewrite allocate_from_back_snoc.
  rewrite decide_True by assumption.
  rewrite allocate_from_back_snoc.
  rewrite length_app. simpl.
  replace (length l + 1)%nat with (S (length l)) by lia.
  fold b. rewrite <- app_assoc. reflexivity.
Qed.

(** C1.  [allocate] first tries the last allocator when there is one;
    when that attempt yields null, or the list is empty, it creates
    one allocator of capacity [max(size, default_allocator_size)],
    accelerator-resident exactly when the configured arch is [cuda],
    appends it, and retries the same request on it. *)
Theorem allocate_last_then_one_new (p : MemoryPool UA)
    (size alignment : Z) :
  let use_cuda := bool_decide (arch (config (prog p)) = cuda) in
  let new_buffer_size := Z.max size default_allocator_size in
  let after := allocate size alignment p in
  (use_cuda = true <-> arch (config (prog p)) = cuda) /\
  (allocators p = [] ->
     let b := ua_new 0 new_buffer_size use_cuda in
     allocators after.1 = [(ua_allocate b size alignment).1] /\
     after.2 = asserted (ua_allocate b size alignment).2) /\
  (forall l a, allocators p = l ++ [a] ->
     let tried := ua_allocate a size alignment in
     (tried.2 <> 0 ->
        allocators after.1 = l ++ [tried.1] /\
        after.2 = Value tried.2) /\
     (tried.2 = 0 ->
        let b := ua_new (S (length l)) new_buffer_size use_cuda in
        allocators after.1
          = l ++ [tried.1; (ua_allocate b size alignment).1] /\
        after.2 = asserted (ua_allocate b size alignment).2)).
Proof.
  intros use_cuda new_buffer_size after. split; [|split].
  - unfold use_cuda. apply bool_decide_eq_true.
  - intros Hnil b. unfold after.
    rewrite (allocate_empty p size alignment Hnil). auto.
  - intros l a Hl tried. split.
    + intros Hret. unfold after.
      rewrite (allocate_hit p size alignment l a Hl Hret). auto.
    + intros Hret b. unfold after.
      rewrite (allocate_miss p size alignment l a Hl Hret). auto.
Qed.

(** C4.  [allocate] never hands a null pointer to its caller: it
    returns a non-null pointer or ends in the fatal assertion; and
    when a fresh allocator of capacity at least [size] can serve the
    request, it returns a non-null pointer. *)
Theorem allocate_non_null_or_fatal (p : MemoryPool UA)
    (size alignment : Z) :
  ((exists ptr, (allocate size alignment p).2 = Value ptr /\ ptr <> 0) \/
   (allocate size alignment p).2 = Failed AssertionFailed) /\
  ((forall serial cap cuda, size <= cap ->
      (ua_allocate (ua_new serial cap cuda) size alignment).2 <> 0) ->
   exists ptr, (allocate size alignment p).2 = Value ptr /\ ptr <> 0).
Proof.
  assert (Hshape : exists ret, (allocate size alignment p).2 = asserted ret
            /\ ((forall serial cap cuda, size <= cap ->
                   (ua_allocate (ua_new serial cap cuda) size alignment).2
                   <> 0) -> ret <> 0)).
  { destruct (allocators p) as [|x l'] eqn:Hall using rev_ind.
    - rewrite (allocate_empty p size alignment Hall). simpl.
      eexists; split; [reflexivity|]. intros Hfresh. apply Hfresh. lia.
    - clear IHl'.
      destruct (decide ((ua_allocate x size alignment).2 = 0)) as [E|E].
      + rewrite (allocate_miss p size alignment l' x Hall E). simpl.
        eexists; split; [reflexivity|]. intros Hfresh. apply Hfresh. lia.
      + rewrite (allocate_hit p size alignment l' x Hall E). simpl.
        exists (ua_allocate x size alignment).2.
        rewrite asserted_value by assumption. auto. }
  destruct Hshape as (ret & Hres & Hfresh). rewrite Hres. split.
  - destruct (asserted_cases ret) as [[Hnz ->]|[_ ->]]; eauto.
  - intros Hpre. exists ret. rewrite asserted_value; auto.
Qed.

End AllocateProperties.

(** ** Allocation from bump allocators *)

Section BumpPoolProperties.

Context `{Declarations} `{BackingMemory}.

Lemma align_up_zero (alignment : Z) : 0 < alignment -> align_up 0 alignment = 0.
Proof.
  intros Hal. unfold align_up.
  rewrite Z.div_small by lia. reflexivity.
Qed.


Lemma bump_allocate_fresh (serial : nat) (cap size alignment : Z) (cuda : bool) :
  0 < alignment -> size <= region_capacity serial cap cuda ->
  bump_allocate (bump_new serial cap cuda) size alignment
  = (mkBufferHandle (region_base serial cap cuda) cuda size
       (region_capacity serial cap cuda),
     region_base serial cap cuda).
Proof.
  intros Hal Hfit. unfold bump_allocate, bump_new. simpl.
  rewrite align_up_zero by assumption.
  rewrite decide_True by lia.
  rewrite Z.add_0_l, Z.add_0_r. reflexivity.
Qed.


(** *** Buffers stay above the null address *)





(** *** Buffers of exactly the capacity asked for *)






End BumpPoolProperties.

(** The scenario of the spec: ten requests of 64 bytes share the first
    buffer of [1 << 20] bytes; the request of [2 << 20] bytes then gets
    a second buffer of that capacity. *)
Example scenario_ten_then_large :
  let p10 := pool (@run host_build _ (@bump_allocator sparse_regions)
                     (replicate 10 (Allocate 64 16)) (boot host_program)) in
  let after := @allocate host_build _ (@bump_allocator sparse_regions)
                 (Z.shiftl 2 20) 16 p10 in
  allocators p10 = [mkBufferHandle 4096 false 640 (Z.shiftl 1 20)] /\
  allocators after.1
    = [mkBufferHandle 4096 false 640 (Z.shiftl 1 20);
       mkBufferHandle (4096 + 2 ^ 32) false (Z.shiftl 2 20) (Z.shiftl 2 20)] /\
  after.2 = Value (4096 + 2 ^ 32).
Proof. vm_compute. auto. Qed.


(** ** The daemon and the shutdown handshake *)

Section DaemonProperties.

Context `{Declarations} {UA : Type} `{UnifiedAllocatorOps UA}.

Implicit Types (s : @process UA) (p : MemoryPool UA) (M : Machine).

Lemma process_eta s :
  mkProcess (pool s) (daemon_thread s) (aborted s) (trace s) = s.
Proof. destruct s; reflexivity. Qed.

Lemma daemon_iteration_no_queue M p :
  queue p = 0 -> daemon_iteration M p = Continue p [].
Proof. intros Hq. unfold daemon_iteration. rewrite decide_True; auto. Qed.

Lemma daemon_iteration_terminating M p :
  queue p <> 0 -> terminating p = true ->
  daemon_iteration M p = Break (with_killed true p).
Proof.
  intros Hq Ht. unfold daemon_iteration.
  rewrite decide_False by assumption. rewrite Ht. reflexivity.
Qed.

Lemma daemon_no_queue (Ms : list Machine) p (evs : list event) :
  queue p = 0 -> daemon Ms p evs = Looping p evs.
Proof.
  intros Hq. induction Ms as [|M Ms IH]; simpl; [reflexivity|].
  rewrite daemon_iteration_no_queue by assumption.
  rewrite app_nil_r. exact IH.
Qed.

Lemma step_wake_no_queue M s :
  queue (pool s) = 0 -> daemon_thread s = Running -> aborted s = None ->
  step s (Wake M) = s.
Proof.
  intros Hq Hrun Hlive. unfold step, wake. rewrite Hlive, Hrun.
  rewrite daemon_iteration_no_queue by assumption.
  rewrite app_nil_r. rewrite <- Hrun, <- Hlive. apply process_eta.
Qed.

Lemma run_wakes_no_queue (Ms : list Machine) s :
  queue (pool s) = 0 -> daemon_thread s = Running -> aborted s = None ->
  run (map Wake Ms) s = s.
Proof.
  intros Hq Hrun Hlive. induction Ms as [|M Ms IH]; [reflexivity|].
  simpl. rewrite step_wake_no_queue by assumption. exact IH.
Qed.

Lemma run_aborted (acts : list action) s (why : fatal) :
  aborted s = Some why -> run acts s = s.
Proof.
  intros Hdead. induction acts as [|a acts IH]; [reflexivity|].
  assert (Hstep : step s a = s) by (unfold step; rewrite Hdead; reflexivity).
  simpl. rewrite Hstep. exact IH.
Qed.

Lemma run_wakes_finished (Ms : list Machine) s :
  daemon_thread s = Finished -> run (map Wake Ms) s = s.
Proof.
  intros Hfin. induction Ms as [|M Ms IH]; [reflexivity|].
  assert (Hstep : step s (Wake M) = s).
  { unfold step, wake. rewrite Hfin. destruct (aborted s); reflexivity. }
  simpl. rewrite Hstep. exact IH.
Qed.

(** The wakes of an execution in which only the daemon runs are the
    passes of [daemon] through its loop. *)
Lemma run_wakes_daemon (Ms : list Machine) s :
  aborted s = None -> daemon_thread s = Running ->
  match daemon Ms (pool s) (trace s) with
  | Looping p evs => run (map Wake Ms) s = mkProcess p Running None evs
  | Returned p evs => run (map Wake Ms) s = mkProcess p Finished None evs
  | Crashed evs why =>
      aborted (run (map Wake Ms) s) = Some why /\
      trace (run (map Wake Ms) s) = evs
  end.
Proof.
  revert s. induction Ms as [|M Ms IH]; intros s Hlive Hrun; simpl.
  - rewrite <- Hlive, <- Hrun. symmetry. apply process_eta.
  - assert (Hstep : step s (Wake M) = wake M s)
      by (unfold step; rewrite Hlive; reflexivity).
    rewrite Hstep. unfold wake. rewrite Hrun.
    destruct (daemon_iteration M (pool s)) as [p' evs'|p'|evs' why].
    + apply (IH (mkProcess p' Running None (trace s ++ evs'))); reflexivity.
    + apply run_wakes_finished. reflexivity.
    + rewrite (run_aborted _ _ why) by reflexivity. auto.
Qed.

Lemma await_daemon_no_queue (Ms : list Machine) s :
  queue (pool s) = 0 -> daemon_thread s = Running -> aborted s = None ->
  await_daemon (map Wake Ms) s = (s, Blocks).
Proof.
  intros Hq Hrun Hlive. induction Ms as [|M Ms IH]; simpl.
  - rewrite Hlive, Hrun. reflexivity.
  - rewrite Hlive, Hrun. rewrite step_wake_no_queue by assumption. exact IH.
Qed.

(** With a queue installed, the wake that follows the request to
    terminate ends the daemon, and [terminate] returns. *)
Lemma terminate_with_queue M (sched : list action) s :
  queue (pool s) <> 0 -> daemon_thread s = Running -> aborted s = None ->
  th_joinable (pool s) = true ->
  terminate (Wake M :: sched) s
  = (mkProcess
       (with_th_joinable false
          (with_killed true (with_terminating true (pool s))))
       Finished None (trace s ++ [ev_terminate] ++ [ev_join]),
     Returns).
Proof.
  intros Hq Hrun Hlive Hjoin. unfold terminate, emit, step. simpl.
  rewrite Hlive. simpl. unfold join, emit. simpl. rewrite Hjoin, Hrun.
  unfold step, wake. simpl.
  rewrite daemon_iteration_terminating by (simpl; auto).
  rewrite <- app_assoc.
  destruct sched; reflexivity.
Qed.

(** C9.  While no queue is installed, a wake of the daemon changes
    nothing in the pool, reads no queue, raises no error and leaves the
    loop running; so does any number of wakes. *)
Theorem daemon_idle_without_queue (Ms : list Machine) s :
  queue (pool s) = 0 -> daemon_thread s = Running -> aborted s = None ->
  (forall M, daemon_iteration M (pool s) = Continue (pool s) []) /\
  daemon Ms (pool s) [] = Looping (pool s) [] /\
  let s' := run (map Wake Ms) s in
  pool s' = pool s /\ trace s' = trace s /\
  aborted s' = None /\ daemon_thread s' = Running.
Proof.
  intros Hq Hrun Hlive. split; [|split].
  - intros M. apply daemon_iteration_no_queue. assumption.
  - apply daemon_no_queue. assumption.
  - simpl. rewrite run_wakes_no_queue by assumption. auto.
Qed.

(** C3, at a pool on which [set_queue] was never called: after
    [terminate()] has set [terminating], no number of wakes makes the
    daemon set [killed], and [terminate()] stays blocked in [join()]. *)
Theorem terminate_without_queue_blocks (pr : Program) (Ms : list Machine) :
  let requested : MemoryPool UA :=
    with_terminating true (MemoryPool_new pr) in
  daemon Ms requested [] = Looping requested [] /\
  let r := terminate (map Wake Ms) (boot pr) in
  r.2 = Blocks /\ terminating (pool r.1) = true /\
  killed (pool r.1) = false /\ daemon_thread r.1 = Running.
Proof.
  split; [apply daemon_no_queue; reflexivity|].
  unfold terminate, join, emit, step, boot. simpl.
  rewrite await_daemon_no_queue by reflexivity. simpl. auto.
Qed.

(** *** What one critical section adds to the trace *)

Lemma allocate_frame (size alignment : Z) p :
  let p' := (allocate size alignment p).1 in
  terminating p' = terminating p /\ killed p' = killed p /\
  processed_tail p' = processed_tail p /\ prog p' = prog p /\
  queue p' = queue p /\ th_joinable p' = th_joinable p.
Proof.
  unfold allocate.
  destruct (if decide (allocators p = []) then _ else _) as [l1 ret1].
  destruct (if decide (ret1 = 0) then _ else _) as [l2 ret2].
  simpl. auto 10.
Qed.


Lemma step_advance s (a : action) : advance s (step s a).
Proof.
  unfold step. destruct (aborted s); [apply adv_silent; reflexivity|].
  destruct a as [M|q|size alignment|]; simpl.
  - unfold wake. destruct (daemon_thread s); [|apply adv_silent; reflexivity].
    unfold daemon_iteration.
    destruct (decide (queue (pool s) = 0)).
    { apply adv_silent; simpl; [apply app_nil_r|reflexivity]. }
    destruct (terminating (pool s)); [apply adv_silent; reflexivity|].
    destruct (fetch _ _ _ _) as [tail|why] eqn:Hfetch.
    + destruct (decide (tail > processed_tail (pool s))).
      * eapply adv_one; simpl; [reflexivity|lia|reflexivity].
      * eapply adv_nothing_new; simpl; [reflexivity|lia|reflexivity].
    + eapply adv_failed; reflexivity.
  - apply adv_silent; reflexivity.
  - pose proof (allocate_frame size alignment (pool s)) as Hframe.
    destruct (allocate size alignment (pool s)) as [p' r].
    apply adv_silent; simpl; [reflexivity|apply Hframe].
  - apply adv_silent; reflexivity.
Qed.

Lemma processed_app (tr1 tr2 : list event) :
  processed (tr1 ++ tr2) = processed tr1 ++ processed tr2.
Proof. apply omap_app. Qed.

Lemma tails_app (tr1 tr2 : list event) :
  tails (tr1 ++ tr2) = tails tr1 ++ tails tr2.
Proof. apply omap_app. Qed.

Lemma latest_app (lo : Z) (l1 l2 : list Z) :
  latest lo (l1 ++ l2) = latest (latest lo l1) l2.
Proof. revert lo. induction l1 as [|t l1 IH]; intros lo; simpl; auto. Qed.

Lemma non_decreasing_from_app (lo : Z) (l1 l2 : list Z) :
  non_decreasing_from lo (l1 ++ l2) <->
  non_decreasing_from lo l1 /\ non_decreasing_from (latest lo l1) l2.
Proof.
  revert lo. induction l1 as [|t l1 IH]; intros lo; simpl.
  - tauto.
  - rewrite IH. tauto.
Qed.

(** Between two states of an execution the daemon announces exactly the
    requests from the old value of the counter up to the new one. *)
Lemma run_processed (acts : list action) s :
  exists evs,
    trace (run acts s) = trace s ++ evs /\
    processed_tail (pool s) <= processed_tail (pool (run acts s)) /\
    processed evs
    = seqZ (processed_tail (pool s))
        (processed_tail (pool (run acts s)) - processed_tail (pool s)).
Proof.
  revert s. induction acts as [|a acts IH]; intros s; simpl.
  - exists []. rewrite app_nil_r, Z.sub_diag. auto with lia.
  - destruct (IH (step s a)) as (evs & Htr & Hle & Hproc).
    set (n := processed_tail (pool (run acts (step s a)))) in *.
    destruct (step_advance s a) as [Ht Hp|addr why Ht Hp|addr tail Ht Hlt Hp
                                   |addr tail Ht Hlt Hp];
      rewrite Ht in Htr; rewrite Hp in Hle, Hproc.
    + exists evs. auto.
    + eexists. rewrite <- app_assoc in Htr. split; [exact Htr|].
      split; [assumption|]. rewrite processed_app. exact Hproc.
    + eexists. rewrite <- app_assoc in Htr. split; [exact Htr|].
      split; [assumption|]. rewrite processed_app. exact Hproc.
    + eexists. rewrite <- app_assoc in Htr. split; [exact Htr|].
      split; [lia|]. rewrite processed_app, Hproc. simpl.
      rewrite (seqZ_cons (processed_tail (pool s))) by lia.
      do 2 f_equal; lia.
Qed.


Lemma step_bounded_by_tail s (a : action) :
  non_decreasing_from 0 (tails (trace (step s a))) ->
  bounded_by_tail s -> bounded_by_tail (step s a).
Proof.
  unfold bounded_by_tail. intros Hmono Hinv.
  destruct (step_advance s a) as [Ht Hp|addr why Ht Hp|addr tail Ht Hlt Hp
                                 |addr tail Ht Hlt Hp];
    rewrite Ht in *; rewrite Hp; rewrite ?tails_app in *; simpl in *;
    rewrite ?app_nil_r in *; try assumption;
    apply non_decreasing_from_app in Hmono as [_ Hlast]; simpl in Hlast;
    rewrite latest_app; simpl; lia.
Qed.

Lemma run_bounded_by_tail (acts : list action) s :
  non_decreasing_from 0 (tails (trace (run acts s))) ->
  bounded_by_tail s -> bounded_by_tail (run acts s).
Proof.
  revert s. induction acts as [|a acts IH]; intros s Hmono Hinv; simpl in *.
  - assumption.
  - apply IH; [assumption|]. apply step_bounded_by_tail; [|assumption].
    destruct (run_processed acts (step s a)) as (evs & Htr & _).
    rewrite Htr, tails_app in Hmono.
    apply non_decreasing_from_app in Hmono. tauto.
Qed.

(** [processed_tail += 1] is only reached below a value of [tail_type],
    so the counter needs no more room than [tail] has: the sum never
    wraps in a counter that is at least as wide as [tail]. *)
Lemma daemon_iteration_in_range M p p' (evs : list event) :
  (0 < sizeof tail_type)%nat ->
  in_range tail_type (processed_tail p) ->
  daemon_iteration M p = Continue p' evs ->
  in_range tail_type (processed_tail p').
Proof.
  intros Hpos Hin. unfold daemon_iteration.
  destruct (decide (queue p = 0)); [intros [= <- _]; assumption|].
  destruct (terminating p); [discriminate|].
  destruct (fetch _ _ _ _) as [tail|why] eqn:Hfetch; [|discriminate].
  apply fetch_in_range in Hfetch; [|assumption].
  destruct (decide _) as [Hgt|_]; intros [= <- _]; [|assumption].
  simpl. unfold in_range in *. destruct (is_signed tail_type); lia.
Qed.

(** A wake that reads the queue, as an equation. *)
Lemma step_wake_reads M s (tail : Z) :
  aborted s = None -> daemon_thread s = Running ->
  queue (pool s) <> 0 -> terminating (pool s) = false ->
  fetch (prog (pool s)) M tail_type (queue (pool s) + tail_offset)
    = Value tail ->
  step s (Wake M)
  = if decide (tail > processed_tail (pool s))
    then mkProcess
           (with_processed_tail (processed_tail (pool s) + 1) (pool s))
           Running None
           (trace s ++ [ev_fetch (queue (pool s) + tail_offset) (Value tail);
                        ev_processing (processed_tail (pool s))])
    else mkProcess (pool s) Running None
           (trace s ++ [ev_fetch (queue (pool s) + tail_offset) (Value tail)]).
Proof.
  intros Hlive Hrun Hq Hterm Hfetch. unfold step, wake.
  rewrite Hlive, Hrun. unfold daemon_iteration.
  rewrite decide_False by assumption. rewrite Hterm, Hfetch.
  destruct (decide _); reflexivity.
Qed.

(** C2, as the code has it.  In every execution the requests are
    announced in the order 0, 1, 2, ... with none skipped or repeated;
    no critical section moves [processed_tail] backward or by more than
    one; a wake that reads [tail > processed_tail] advances it by exactly
    one and announces the old value.  At every read of [tail],
    [processed_tail <= tail] holds before and after the update, provided
    the values of [tail] read so far start at 0 or above and never
    decrease. *)
Theorem processed_tail_discipline (pr : Program) (acts : list action) :
  let s : @process UA := run acts (boot pr) in
  processed (trace s) = seqZ 0 (processed_tail (pool s)) /\
  (forall a : action,
     processed_tail (pool s) <= processed_tail (pool (step s a))
       <= processed_tail (pool s) + 1) /\
  (forall M tail,
     aborted s = None -> daemon_thread s = Running ->
     queue (pool s) <> 0 -> terminating (pool s) = false ->
     fetch (prog (pool s)) M tail_type (queue (pool s) + tail_offset)
       = Value tail ->
     (tail > processed_tail (pool s) ->
        processed_tail (pool (step s (Wake M))) = processed_tail (pool s) + 1
        /\ processed (trace (step s (Wake M)))
           = processed (trace s) ++ [processed_tail (pool s)]) /\
     (non_decreasing_from 0 (tails (trace s) ++ [tail]) ->
        processed_tail (pool s) <= tail /\
        processed_tail (pool (step s (Wake M))) <= tail)).
Proof.
  intros s. split; [|split].
  - destruct (run_processed acts (boot pr)) as (evs & Htr & _ & Hproc).
    fold s in Htr, Hproc. simpl in Htr, Hproc. rewrite Htr.
    rewrite Hproc. f_equal. lia.
  - intros a.
    destruct (step_advance s a) as [_ Hp|? ? _ Hp|? ? _ _ Hp|? ? _ _ Hp];
      rewrite Hp; lia.
  - intros M tail Hlive Hrun Hq Hterm Hfetch.
    rewrite (step_wake_reads M s tail Hlive Hrun Hq Hterm Hfetch). split.
    + intros Hgt. rewrite decide_True by assumption. simpl.
      split; [reflexivity|]. rewrite processed_app. reflexivity.
    + intros Hmono. apply non_decreasing_from_app in Hmono as [Hpre Hlast].
      simpl in Hlast.
      assert (Hinv : bounded_by_tail s).
      { apply run_bounded_by_tail; [exact Hpre|].
        unfold bounded_by_tail. simpl. lia. }
      unfold bounded_by_tail in Hinv.
      destruct (decide _); simpl; lia.
Qed.

(** C10.  [set_queue] replaces the queue pointer and nothing else; in
    particular [processed_tail] keeps its value, so whatever runs after
    the swap announces no request below that value. *)
Theorem set_queue_changes_queue_only (q : Z) (acts : list action) s :
  let p' := set_queue q (pool s) in
  (queue p' = q /\ allocators p' = allocators (pool s) /\
   terminating p' = terminating (pool s) /\ killed p' = killed (pool s) /\
   processed_tail p' = processed_tail (pool s) /\
   prog p' = prog (pool s) /\ th_joinable p' = th_joinable (pool s)) /\
  exists evs,
    trace (run acts (step s (SetQueue q))) = trace s ++ evs /\
    Forall (fun i => processed_tail (pool s) <= i) (processed evs).
Proof.
  split; [simpl; auto 10|].
  destruct (run_processed acts (step s (SetQueue q))) as (evs & Htr & _ & Hp).
  assert (Hsame : trace (step s (SetQueue q)) = trace s /\
                  processed_tail (pool (step s (SetQueue q)))
                  = processed_tail (pool s)).
  { unfold step. destruct (aborted s); auto. }
  destruct Hsame as [Ht Hpt]. rewrite Ht in Htr. rewrite Hpt in Hp.
  exists evs. split; [exact Htr|]. rewrite Hp.
  apply Forall_seqZ. intros; lia.
Qed.

(** *** Lifecycle flags along an execution *)


Lemma calls_app (tr1 tr2 : list event) :
  terminate_calls (tr1 ++ tr2)
    = (terminate_calls tr1 + terminate_calls tr2)%nat /\
  join_calls (tr1 ++ tr2) = (join_calls tr1 + join_calls tr2)%nat.
Proof.
  unfold terminate_calls, join_calls.
  rewrite !filter_app, !length_app. auto.
Qed.

Lemma step_calls s (a : action) :
  terminate_calls (trace (step s a)) = terminate_calls (trace s) /\
  join_calls (trace (step s a)) = join_calls (trace s).
Proof.
  destruct (step_advance s a) as [Ht _|? ? Ht _|? ? Ht _ _|? ? Ht _ _];
    rewrite Ht; [auto|..];
    match goal with
    | |- context [trace s ++ ?evs] =>
        destruct (calls_app (trace s) evs) as [-> ->]
    end;
    split; apply Nat.add_0_r.
Qed.

Lemma step_lifecycle s (a : action) :
  th_joinable (pool (step s a)) = th_joinable (pool s) /\
  (killed (pool s) = true -> killed (pool (step s a)) = true) /\
  (killed_by_daemon s -> killed_by_daemon (step s a)).
Proof.
  unfold killed_by_daemon, step. destruct (aborted s); [auto|].
  destruct a as [M|q|size alignment|]; simpl; auto.
  - unfold wake. destruct (daemon_thread s) eqn:Hrun; [|auto].
    unfold daemon_iteration.
    destruct (decide (queue (pool s) = 0)); [simpl; auto|].
    destruct (terminating (pool s)); [simpl; auto|].
    destruct (fetch _ _ _ _); [|simpl; auto].
    destruct (decide _); simpl; auto.
  - pose proof (allocate_frame size alignment (pool s))
      as (_ & Hk & _ & _ & _ & Hj).
    destruct (allocate size alignment (pool s)) as [p' r].
    simpl in *. rewrite Hk, Hj. auto.
Qed.

Lemma run_lifecycle (acts : list action) s :
  (killed (pool s) = true -> killed (pool (run acts s)) = true) /\
  (killed_by_daemon s -> killed_by_daemon (run acts s)).
Proof.
  revert s. induction acts as [|a acts IH]; intros s; simpl; [auto|].
  destruct (step_lifecycle s a) as (_ & Hk & Hinv).
  destruct (IH (step s a)) as [Hk' Hinv']. auto.
Qed.

Lemma boot_killed_by_daemon (pr : Program) :
  killed_by_daemon (boot pr : @process UA).
Proof. unfold killed_by_daemon. discriminate. Qed.

(** What the wait inside [join()] leaves behind. *)
Lemma await_daemon_lifecycle (sched : list action) s :
  let r := await_daemon sched s in
  th_joinable (pool r.1) = th_joinable (pool s) /\
  terminate_calls (trace r.1) = terminate_calls (trace s) /\
  join_calls (trace r.1) = join_calls (trace s) /\
  (killed (pool s) = true -> killed (pool r.1) = true) /\
  (r.2 = Returns -> daemon_thread r.1 = Finished /\ aborted r.1 = None) /\
  r.2 <> Throws.
Proof.
  revert s. induction sched as [|a sched IH]; intros s; simpl.
  - destruct (aborted s) eqn:Hlive; simpl; [repeat split; auto; discriminate|].
    destruct (daemon_thread s) eqn:Hrun; simpl;
      repeat split; auto; discriminate.
  - destruct (aborted s) eqn:Hlive; simpl; [repeat split; auto; discriminate|].
    destruct (daemon_thread s) eqn:Hrun; simpl;
      [|repeat split; auto; discriminate].
    destruct (IH (step s a)) as (Hj & Ht & Hjc & Hk & Hret & Hthrow).
    destruct (step_lifecycle s a) as (Hj' & Hk' & _).
    destruct (step_calls s a) as [Ht' Hjc'].
    rewrite Hj, Ht, Hjc, Hj', Ht', Hjc'. auto 10.
Qed.

(** What a call of [terminate()] leaves behind. *)
Lemma terminate_lifecycle (sched : list action) s :
  let r := terminate sched s in
  terminate_calls (trace r.1) = S (terminate_calls (trace s)) /\
  (r.2 = Returns ->
     killed (pool r.1) = true /\ daemon_thread r.1 = Finished /\
     aborted r.1 = None /\ th_joinable (pool r.1) = false).
Proof.
  unfold terminate.
  set (s1 := step (emit ev_terminate s) RequestTermination).
  assert (Hs1 : terminate_calls (trace s1) = S (terminate_calls (trace s))).
  { unfold s1. destruct (step_calls (emit ev_terminate s) RequestTermination)
      as [-> _]. simpl.
    destruct (calls_app (trace s) [ev_terminate]) as [-> _].
    change (terminate_calls [ev_terminate]) with 1%nat. lia. }
  destruct (aborted s1) eqn:Hlive; simpl; [split; [exact Hs1|discriminate]|].
  unfold join.
  set (s2 := emit ev_join s1).
  assert (Hs2 : terminate_calls (trace s2) = terminate_calls (trace s1)).
  { unfold s2. simpl.
    destruct (calls_app (trace s1) [ev_join]) as [-> _].
    change (terminate_calls [ev_join]) with 0%nat. lia. }
  pose proof Hs2 as Hs2'. unfold s2 in Hs2'. simpl in Hs2'.
  destruct (th_joinable (pool s2)); simpl;
    [|split; [congruence|discriminate]].
  pose proof (await_daemon_lifecycle sched s2)
    as (_ & Ht & _ & _ & Hret & _).
  destruct (await_daemon sched s2) as [s3 e]. simpl in *.
  destruct e; simpl; try (split; [congruence|discriminate]).
  destruct (Hret eq_refl) as [Hfin Hlive3].
  destruct (killed (pool s3)) eqn:Hk; simpl.
  - split; [congruence|]. intros _. auto.
  - split; [congruence|discriminate].
Qed.

(** C8.  The destructor calls [terminate()] once when [killed] is false
    and not at all when it is true; whenever it completes, the daemon
    has left its loop. *)
Theorem destroy_terminates_unless_killed (sched : list action) s :
  killed_by_daemon s ->
  let r := destroy sched s in
  (killed (pool s) = false ->
     r = terminate sched s /\
     terminate_calls (trace r.1) = S (terminate_calls (trace s))) /\
  (killed (pool s) = true ->
     r = (s, Returns) /\
     terminate_calls (trace r.1) = terminate_calls (trace s)) /\
  (r.2 = Returns ->
     daemon_thread r.1 = Finished /\ killed (pool r.1) = true).
Proof.
  intros Hinv. unfold destroy.
  destruct (killed (pool s)) eqn:Hk; simpl.
  - split; [discriminate|]. split; [auto|]. auto.
  - pose proof (terminate_lifecycle sched s) as [Hcalls Hret].
    split; [auto|]. split; [discriminate|].
    intros Hr. destruct (Hret Hr) as (? & ? & _). auto.
Qed.

(** C7, as the code has it.  Once [terminate()] has returned, [killed]
    is true and stays true; the destructor does not call [terminate()]
    again; a second call of [terminate()] does not block, but it does
    call [th->join()] again, on a thread that is no longer joinable,
    and ends in the error that [join()] raises. *)
Theorem after_terminate_returned (sched : list action) s :
  (terminate sched s).2 = Returns ->
  let s1 := (terminate sched s).1 in
  killed (pool s1) = true /\
  (forall acts : list action, killed (pool (run acts s1)) = true) /\
  (forall sched' : list action, destroy sched' s1 = (s1, Returns)) /\
  (forall sched' : list action,
     let r := terminate sched' s1 in
     r.2 = Throws /\ killed (pool r.1) = true /\
     join_calls (trace r.1) = S (join_calls (trace s1))).
Proof.
  intros Hret s1.
  destruct (terminate_lifecycle sched s) as [_ Hafter].
  destruct (Hafter Hret) as (Hk & Hfin & Hlive & Hjoin). fold s1 in Hk, Hfin, Hlive, Hjoin.
  split; [exact Hk|]. split; [|split].
  - intros acts. apply run_lifecycle. exact Hk.
  - intros sched'. unfold destroy. rewrite Hk. reflexivity.
  - intros sched'. unfold terminate, join, emit, step. simpl.
    rewrite Hlive. simpl. rewrite Hjoin. simpl.
    split; [reflexivity|]. split; [exact Hk|].
    destruct (calls_app (trace s1 ++ [ev_terminate]) [ev_join]) as [_ ->].
    destruct (calls_app (trace s1) [ev_terminate]) as [_ ->].
    change (join_calls [ev_terminate]) with 0%nat.
    change (join_calls [ev_join]) with 1%nat. lia.
Qed.

End DaemonProperties.


(** ** The theorems at concrete inputs *)

Lemma sparse_regions_positive (serial : nat) (cap : Z) (cuda : bool) :
  0 < @region_base sparse_regions serial cap cuda.
Proof. simpl. change (2 ^ 32) with 4294967296. lia. Qed.

Lemma allocate_last_then_one_new_witness :
  let p0 : MemoryPool BufferHandle := MemoryPool_new host_program in
  let p1 := (@allocate host_build _ host_ops 64 16 p0).1 in
  allocators p1 = [mkBufferHandle 4096 false 64 1048576] /\
  (@allocate host_build _ host_ops 64 16 p1).2 = Value 4160 /\
  allocators (@allocate host_build _ host_ops 2097152 16 p1).1
  = [mkBufferHandle 4096 false 64 1048576;
     mkBufferHandle 4294971392 false 2097152 2097152].
Proof.
  intros p0 p1. split; [|split].
  - pose proof (@allocate_last_then_one_new host_build _ host_ops p0 64 16)
      as (_ & Hempty & _).
    destruct (Hempty eq_refl) as [Hl _]. exact Hl.
  - pose proof (@allocate_last_then_one_new host_build _ host_ops p1 64 16)
      as (_ & _ & Hlast).
    destruct (Hlast [] (mkBufferHandle 4096 false 64 1048576) eq_refl)
      as [Hhit _].
    destruct Hhit as [_ Hret]; [vm_compute; discriminate|exact Hret].
  - pose proof (@allocate_last_then_one_new host_build _ host_ops p1
                  2097152 16) as (_ & _ & Hlast).
    destruct (Hlast [] (mkBufferHandle 4096 false 64 1048576) eq_refl)
      as [_ Hmiss].
    destruct (Hmiss eq_refl) as [Hl _]. exact Hl.
Defined.

Lemma allocate_non_null_or_fatal_witness :
  exists ptr,
    (@allocate host_build _ host_ops 64 16 (MemoryPool_new host_program)).2
    = Value ptr /\ ptr <> 0.
Proof.
  apply (@allocate_non_null_or_fatal host_build _ host_ops
           (MemoryPool_new host_program) 64 16).
  intros serial cap cuda Hcap. simpl.
  rewrite (@bump_allocate_fresh sparse_regions) by (simpl; lia). simpl.
  pose proof (sparse_regions_positive serial cap cuda) as Hpos.
  simpl in Hpos. lia.
Defined.


Lemma processed_tail_discipline_witness :
  let s := @step host_build _ host_ops installed_process
             (Wake (host_queue 1000 3)) in
  processed_tail (pool s) = 1 /\ processed (trace s) = [0] /\
  processed_tail (pool installed_process) <= 3.
Proof.
  pose proof (@processed_tail_discipline host_build _ host_ops host_program
                [SetQueue 1000]) as (_ & _ & Hwake).
  destruct (Hwake (host_queue 1000 3) 3 eq_refl eq_refl
              ltac:(vm_compute; discriminate) eq_refl
              ltac:(vm_compute; reflexivity)) as [Hadvance Hbound].
  destruct (Hadvance ltac:(vm_compute; reflexivity)) as [Hpt Hproc].
  destruct (Hbound ltac:(vm_compute; intuition discriminate)) as [Hbefore _].
  split; [exact Hpt|]. split; [exact Hproc|exact Hbefore].
Defined.

Lemma destroy_terminates_unless_killed_witness :
  let r := @destroy host_build _ host_ops [Wake (host_queue 1000 0)]
             installed_process in
  terminate_calls (trace r.1) = 1%nat /\
  daemon_thread r.1 = Finished /\ killed (pool r.1) = true /\
  @destroy host_build _ host_ops [] r.1 = (r.1, Returns).
Proof.
  pose proof (@destroy_terminates_unless_killed host_build _ host_ops
                [Wake (host_queue 1000 0)] installed_process
                ltac:(unfold killed_by_daemon; vm_compute; discriminate))
    as (Hcall & _ & Hdone).
  destruct (Hcall eq_refl) as [_ Hcount].
  destruct (Hdone eq_refl) as [Hfin Hkilled].
  pose proof (@destroy_terminates_unless_killed host_build _ host_ops []
                (@destroy host_build _ host_ops [Wake (host_queue 1000 0)]
                   installed_process).1
                ltac:(unfold killed_by_daemon; intros _; exact Hfin))
    as (_ & Hskip & _).
  destruct (Hskip Hkilled) as [Hsame _].
  split; [exact Hcount|]. split; [exact Hfin|]. split; [exact Hkilled|].
  exact Hsame.
Defined.

Lemma after_terminate_returned_witness :
  let s1 := (@terminate host_build _ host_ops [Wake (host_queue 1000 0)]
               installed_process).1 in
  killed (pool s1) = true /\
  (@terminate host_build _ host_ops [] s1).2 = Throws.
Proof.
  pose proof (@after_terminate_returned host_build _ host_ops
                [Wake (host_queue 1000 0)] installed_process eq_refl)
    as (Hk & _ & _ & Hagain).
  split; [exact Hk|]. apply (Hagain []).
Defined.

Lemma daemon_idle_without_queue_witness :
  @run host_build _ host_ops
    (map Wake [host_queue 1000 3; host_queue 1000 5]) fresh_process
  = fresh_process.
Proof.
  pose proof (@daemon_idle_without_queue host_build _ host_ops
                [host_queue 1000 3; host_queue 1000 5] fresh_process
                eq_refl eq_refl eq_refl) as (_ & _ & Hp & Ht & Ha & Hd).
  destruct (@run host_build _ host_ops _ fresh_process) as [p d a t].
  simpl in *. subst. reflexivity.
Defined.

(** ** Where the specification and the code part ways *)

(** C2, the bound as the specification states it, fails on a queue
    swap: the daemon reads [tail = 0] from the new queue while
    [processed_tail] still is 2. *)
Lemma queue_swap_breaks_tail_bound :
  let s := @run host_build _ host_ops swap_execution fresh_process in
  tails (trace s) = [2; 2; 0] /\
  processed_tail (pool s) = 2 /\
  ~ processed_tail (pool s) <= latest 0 (tails (trace s)).
Proof.
  intros s.
  assert (Htails : tails (trace s) = [2; 2; 0]) by (vm_compute; reflexivity).
  assert (Hpt : processed_tail (pool s) = 2) by (vm_compute; reflexivity).
  rewrite Htails, Hpt. simpl. split; [reflexivity|]. split; [reflexivity|lia].
Qed.


(** C7, the second call as the specification states it: [terminate()]
    does call [th->join()] once more, and the call ends in the error of
    [join()]. *)
Lemma second_terminate_joins_again :
  let first := @terminate host_build _ host_ops [Wake (host_queue 1000 0)]
                 installed_process in
  let second := @terminate host_build _ host_ops [] first.1 in
  first.2 = Returns /\ join_calls (trace first.1) = 1%nat /\
  second.2 = Throws /\ join_calls (trace second.1) = 2%nat /\
  join_calls (trace second.1) <> join_calls (trace first.1).
Proof. vm_compute. repeat split; discriminate. Qed.

(** * Further properties of the pool *)

(** ** What [allocate] leaves alone *)

Section AllocatorListProperties.

Context `{Declarations} {UA : Type} `{UnifiedAllocatorOps UA}.

Implicit Types (s : @process UA) (p : MemoryPool UA).

Lemma allocate_back_only p (size alignment : Z) :
  let l := allocators p in
  let l' := allocators (allocate size alignment p).1 in
  l' <> [] /\
  (length l <= length l' <= S (length l))%nat /\
  (forall i : nat, (S i < length l)%nat -> l' !! i = l !! i).
Proof.
  simpl. destruct (allocators p) as [|a l] eqn:Hall using rev_ind.
  - rewrite (allocate_empty p size alignment Hall). simpl.
    split; [discriminate|]. split; [lia|]. intros i Hi. lia.
  - clear IHl.
    destruct (decide ((ua_allocate a size alignment).2 = 0)) as [E|E].
    + rewrite (allocate_miss p size alignment l a Hall E). simpl.
      split; [destruct l; discriminate|].
      rewrite !length_app. simpl. split; [lia|].
      intros i Hi. rewrite !lookup_app_l by lia. reflexivity.
    + rewrite (allocate_hit p size alignment l a Hall E). simpl.
      split; [destruct l; discriminate|].
      rewrite !length_app. simpl. split; [lia|].
      intros i Hi. rewrite !lookup_app_l by lia. reflexivity.
Qed.

(** X1.  A call of [allocate] changes nothing of the pool but the list
    of allocators; it leaves that list non-empty, makes it longer by at
    most one, and leaves every allocator before the last one of the
    moment as it was. *)
Theorem allocate_touches_only_back p (size alignment : Z) :
  let p' := (allocate size alignment p).1 in
  (terminating p' = terminating p /\ killed p' = killed p /\
   processed_tail p' = processed_tail p /\ queue p' = queue p /\
   prog p' = prog p /\ th_joinable p' = th_joinable p) /\
  allocators p' <> [] /\
  (length (allocators p) <= length (allocators p')
     <= S (length (allocators p)))%nat /\
  (forall i : nat, (S i < length (allocators p))%nat ->
     allocators p' !! i = allocators p !! i).
Proof.
  intros p'. split.
  - pose proof (allocate_frame size alignment p) as Hf. simpl in Hf.
    unfold p'. tauto.
  - apply allocate_back_only.
Qed.



End AllocatorListProperties.

(** ** The daemon, one wake after another *)

Section PollingProperties.

Context `{Declarations} {UA : Type} `{UnifiedAllocatorOps UA}.

Implicit Types (s : @process UA) (p : MemoryPool UA) (M : Machine).

Lemma step_flags s (a : action) :
  (daemon_thread s = Finished <-> killed (pool s) = true) ->
  (killed (pool s) = true -> terminating (pool s) = true) ->
  (daemon_thread (step s a) = Finished <-> killed (pool (step s a)) = true)
  /\ (killed (pool (step s a)) = true -> terminating (pool (step s a)) = true)
  /\ (terminating (pool s) = true -> terminating (pool (step s a)) = true).
Proof.
  intros Hfin Hterm. unfold step. destruct (aborted s); [auto|].
  destruct a as [M|q|size alignment|]; simpl; auto.
  - unfold wake. destruct (daemon_thread s) eqn:Hrun; [|intuition congruence].
    unfold daemon_iteration.
    destruct (decide (queue (pool s) = 0)); [simpl; intuition congruence|].
    destruct (terminating (pool s)) eqn:Ht; [simpl; intuition congruence|].
    destruct (fetch _ _ _ _); [|simpl; intuition congruence].
    destruct (decide _); simpl; intuition congruence.
  - pose proof (allocate_frame size alignment (pool s))
      as (Ht & Hk & _).
    destruct (allocate size alignment (pool s)) as [p' r].
    simpl in *. rewrite Ht, Hk. auto.
Qed.

(** X3.  In every execution from the constructor the daemon has left
    its loop exactly when [killed] is true, [killed] is true only after
    termination was requested, and [terminating], once set, is never
    cleared. *)
Theorem lifecycle_flags_agree (pr : Program) (acts more : list action) :
  let s : @process UA := run acts (boot pr) in
  (daemon_thread s = Finished <-> killed (pool s) = true) /\
  (killed (pool s) = true -> terminating (pool s) = true) /\
  (terminating (pool s) = true -> terminating (pool (run more s)) = true).
Proof.
  intros s.
  assert (Hinv : forall (l : list action) (s0 : @process UA),
            (daemon_thread s0 = Finished <-> killed (pool s0) = true) ->
            (killed (pool s0) = true -> terminating (pool s0) = true) ->
            (daemon_thread (run l s0) = Finished
               <-> killed (pool (run l s0)) = true) /\
            (killed (pool (run l s0)) = true ->
               terminating (pool (run l s0)) = true) /\
            (terminating (pool s0) = true ->
               terminating (pool (run l s0)) = true)).
  { induction l as [|a l IH]; intros s0 Hfin Hterm; simpl; [auto|].
    destruct (step_flags s0 a Hfin Hterm) as (Hfin' & Hterm' & Hmono).
    destruct (IH (step s0 a) Hfin' Hterm') as (? & ? & ?). auto. }
  assert (Hboot : (daemon_thread (boot pr : @process UA) = Finished
                     <-> killed (pool (boot pr : @process UA)) = true) /\
                  (killed (pool (boot pr : @process UA)) = true ->
                     terminating (pool (boot pr : @process UA)) = true)).
  { simpl. split; [split; discriminate|discriminate]. }
  destruct Hboot as [Hb1 Hb2].
  destruct (Hinv acts (boot pr) Hb1 Hb2) as (Hfin & Hterm & _).
  fold s in Hfin, Hterm. split; [exact Hfin|]. split; [exact Hterm|].
  apply (Hinv more s Hfin Hterm).
Qed.

(** X4.  [processed_tail] changes in no critical section but a wake of
    the daemon that, with a queue installed and no termination
    requested, reads a [tail] above it; the change then is the step to
    the next value.  [allocate], [set_queue] and [terminate] never
    change it. *)
Theorem only_a_reading_wake_advances s (a : action) :
  processed_tail (pool (step s a)) <> processed_tail (pool s) ->
  exists M tail,
    a = Wake M /\ queue (pool s) <> 0 /\ terminating (pool s) = false /\
    fetch (prog (pool s)) M tail_type (queue (pool s) + tail_offset)
      = Value tail /\
    processed_tail (pool s) < tail /\
    processed_tail (pool (step s a)) = processed_tail (pool s) + 1.
Proof.
  unfold step. destruct (aborted s); [congruence|].
  destruct a as [M|q|size alignment|]; simpl; try congruence.
  - unfold wake. destruct (daemon_thread s); [|congruence].
    unfold daemon_iteration.
    destruct (decide (queue (pool s) = 0)) as [|Hq]; [simpl; congruence|].
    destruct (terminating (pool s)) eqn:Ht; [simpl; congruence|].
    destruct (fetch _ _ _ _) as [tail|why] eqn:Hfetch; [|simpl; congruence].
    destruct (decide _) as [Hgt|]; simpl; [|congruence].
    intros _. exists M, tail. repeat split; auto. lia.
  - pose proof (allocate_frame size alignment (pool s)) as (_ & _ & Hp & _).
    destruct (allocate size alignment (pool s)) as [p' r].
    simpl in *. congruence.
Qed.

(** X5.  While the queue shows the same [tail] at every wake, each wake
    handles one request until [processed_tail] has reached [tail]: after
    [k] wakes the counter stands at [min(tail, processed_tail + k)], or
    where it was if it already was beyond [tail]; the daemon keeps
    running. *)
Theorem wakes_catch_up (Ms : list Machine) s (tail : Z) :
  aborted s = None -> daemon_thread s = Running ->
  queue (pool s) <> 0 -> terminating (pool s) = false ->
  Forall (fun M => fetch (prog (pool s)) M tail_type
                     (queue (pool s) + tail_offset) = Value tail) Ms ->
  let s' := run (map Wake Ms) s in
  processed_tail (pool s')
  = Z.max (processed_tail (pool s))
      (Z.min tail (processed_tail (pool s) + Z.of_nat (length Ms))) /\
  daemon_thread s' = Running /\ aborted s' = None.
Proof.
  revert s. induction Ms as [|M Ms IH];
    intros s Hlive Hrun Hq Hterm Hreads; simpl.
  - split; [lia|auto].
  - apply Forall_cons in Hreads as [Hread Hrest].
    rewrite (step_wake_reads M s tail Hlive Hrun Hq Hterm Hread).
    destruct (decide (tail > processed_tail (pool s))) as [Hgt|Hle].
    + match goal with
      | |- context [run (map Wake Ms) ?st] =>
          destruct (IH st) as (Hpt & Hr & Ha); simpl; auto
      end.
      simpl in Hpt. rewrite Hpt. split; [lia|auto].
    + match goal with
      | |- context [run (map Wake Ms) ?st] =>
          destruct (IH st) as (Hpt & Hr & Ha); simpl; auto
      end.
      simpl in Hpt. rewrite Hpt. split; [lia|auto].
Qed.

Lemma zero_in_range (T : scalar_type) : (0 < sizeof T)%nat -> in_range T 0.
Proof.
  intros Hpos. unfold in_range.
  set (bits := 8 * Z.of_nat (sizeof T)).
  assert (0 < 2 ^ (bits - 1)) by (apply Z.pow_pos_nonneg; lia).
  assert (0 < 2 ^ bits) by (apply Z.pow_pos_nonneg; lia).
  destruct (is_signed T); lia.
Qed.

Lemma step_in_range s (a : action) :
  (0 < sizeof tail_type)%nat ->
  in_range tail_type (processed_tail (pool s)) ->
  in_range tail_type (processed_tail (pool (step s a))).
Proof.
  intros Hpos Hin.
  destruct (decide (processed_tail (pool (step s a))
                    = processed_tail (pool s))) as [->|Hne]; [assumption|].
  unfold step in *. destruct (aborted s); [congruence|].
  destruct a as [M|q|size alignment|]; simpl in *; try congruence.
  - unfold wake in *. destruct (daemon_thread s); [|congruence].
    destruct (daemon_iteration M (pool s)) as [p' evs| |] eqn:Hit;
      simpl in *; try congruence.
    + eapply daemon_iteration_in_range; eassumption.
    + unfold daemon_iteration in Hit.
      destruct (decide (queue (pool s) = 0)); [discriminate|].
      destruct (terminating (pool s)).
      * injection Hit as <-. simpl in Hne. congruence.
      * destruct (fetch _ _ _ _); [destruct (decide _)|]; discriminate.
  - pose proof (allocate_frame size alignment (pool s)) as (_ & _ & Hp & _).
    destruct (allocate size alignment (pool s)) as [p' r].
    simpl in *. congruence.
Qed.

(** X6.  In every execution from the constructor [processed_tail] is a
    value of the type of [tail]: the increment is reached only below a
    value read from [tail], so it cannot carry the counter past the
    largest value of that type. *)
Theorem processed_tail_fits_tail_type (pr : Program) (acts : list action) :
  (0 < sizeof tail_type)%nat ->
  in_range tail_type
    (processed_tail (pool (run acts (boot pr : @process UA)))).
Proof.
  intros Hpos.
  assert (Hinv : forall (l : list action) (s0 : @process UA),
            in_range tail_type (processed_tail (pool s0)) ->
            in_range tail_type (processed_tail (pool (run l s0)))).
  { induction l as [|a l IH]; intros s0 Hin; simpl; [assumption|].
    apply IH. apply step_in_range; assumption. }
  apply Hinv. simpl. apply zero_in_range. assumption.
Qed.

(** X7.  With the accelerator as target in a build without accelerator
    support, the first wake that finds a queue installed and no
    termination requested ends in the "not implemented" error: the pool
    is left as it was and nothing runs after it. *)
Theorem wake_without_cuda_support_aborts M s (acts : list action) :
  arch (config (prog (pool s))) = cuda -> TLANG_WITH_CUDA = false ->
  aborted s = None -> daemon_thread s = Running ->
  queue (pool s) <> 0 -> terminating (pool s) = false ->
  let s' := step s (Wake M) in
  aborted s' = Some NotImplemented /\ pool s' = pool s /\
  processed (trace s') = processed (trace s) /\
  run acts s' = s'.
Proof.
  intros Harch Hbuild Hlive Hrun Hq Hterm s'.
  assert (Hs' : s' = mkProcess (pool s) Running (Some NotImplemented)
                       (trace s ++ [ev_fetch (queue (pool s) + tail_offset)
                                      (Failed NotImplemented)])).
  { unfold s', step, wake. rewrite Hlive, Hrun. unfold daemon_iteration.
    rewrite decide_False by assumption. rewrite Hterm.
    unfold fetch. rewrite decide_True by assumption. rewrite Hbuild.
    reflexivity. }
  rewrite Hs'. simpl. split; [reflexivity|]. split; [reflexivity|].
  split.
  - rewrite processed_app. simpl. apply app_nil_r.
  - apply (run_aborted _ _ NotImplemented). reflexivity.
Qed.

Lemma await_daemon_skips_idle_wakes (Ms : list Machine)
    (rest : list action) s :
  queue (pool s) = 0 -> daemon_thread s = Running -> aborted s = None ->
  await_daemon (map Wake Ms ++ rest) s = await_daemon rest s.
Proof.
  intros Hq Hrun Hlive. induction Ms as [|M Ms IH]; [reflexivity|].
  simpl. rewrite Hlive, Hrun.
  rewrite step_wake_no_queue by assumption. rewrite IH.
  reflexivity.
Qed.

(** X8.  A call of [terminate()] that waits on a pool without a queue is
    released when another thread installs a queue: the wake that follows
    [set_queue] sets [killed] and ends the daemon, without any read of
    the queue, and [terminate()] returns. *)
Theorem late_set_queue_releases_terminate (pr : Program)
    (Ms : list Machine) (q : Z) M (rest : list action) :
  q <> 0 ->
  let r := terminate (map Wake Ms ++ SetQueue q :: Wake M :: rest)
             (boot pr : @process UA) in
  r.2 = Returns /\ killed (pool r.1) = true /\
  daemon_thread r.1 = Finished /\ queue (pool r.1) = q /\
  trace r.1 = [ev_terminate; ev_join].
Proof.
  intros Hq. unfold terminate, join, emit, step at 1, boot. simpl.
  rewrite await_daemon_skips_idle_wakes by reflexivity.
  simpl.
  match goal with
  | |- context [await_daemon rest ?st] =>
      assert (Hst : st = mkProcess
                (with_killed true
                   (with_queue q
                      (with_terminating true (MemoryPool_new pr))))
                Finished None [ev_terminate; ev_join])
  end.
  { unfold step, wake. simpl.
    rewrite daemon_iteration_terminating by (simpl; auto). reflexivity. }
  rewrite Hst. destruct rest; simpl; auto 10.
Qed.

End PollingProperties.

(** ** More on the daemon and on [fetch] *)

Section WakeProperties.

Context `{Declarations} {UA : Type} `{UnifiedAllocatorOps UA}.

Implicit Types (s : @process UA) (p : MemoryPool UA) (M : Machine).

(** X9.  With a queue installed, [terminate()] returns after the first
    wake of the daemon: that wake sets [killed] and leaves the loop
    without reading the queue, nothing else in the pool changes but the
    flags of the handshake, and the rest of the schedule is not waited
    for. *)
Theorem terminate_returns_after_one_wake M (sched : list action) s :
  queue (pool s) <> 0 -> daemon_thread s = Running -> aborted s = None ->
  th_joinable (pool s) = true ->
  let r := terminate (Wake M :: sched) s in
  r.2 = Returns /\
  killed (pool r.1) = true /\ terminating (pool r.1) = true /\
  daemon_thread r.1 = Finished /\ th_joinable (pool r.1) = false /\
  allocators (pool r.1) = allocators (pool s) /\
  processed_tail (pool r.1) = processed_tail (pool s) /\
  queue (pool r.1) = queue (pool s) /\
  trace r.1 = trace s ++ [ev_terminate; ev_join].
Proof.
  intros Hq Hrun Hlive Hjoin r. unfold r.
  rewrite (terminate_with_queue M sched s Hq Hrun Hlive Hjoin).
  simpl. auto 10.
Qed.

(** X10.  A wake of the daemon never creates or changes an allocator and
    never changes the queue pointer, [terminating], the program or the
    thread handle: of the pool it can change [processed_tail] and
    [killed] only. *)
Theorem wake_changes_counter_and_killed_only M s :
  let p' := pool (step s (Wake M)) in
  allocators p' = allocators (pool s) /\
  queue p' = queue (pool s) /\
  terminating p' = terminating (pool s) /\
  prog p' = prog (pool s) /\
  th_joinable p' = th_joinable (pool s).
Proof.
  unfold step. destruct (aborted s); [auto|].
  unfold wake. destruct (daemon_thread s); [|auto].
  unfold daemon_iteration.
  destruct (decide (queue (pool s) = 0)); [simpl; auto|].
  destruct (terminating (pool s)) eqn:Ht; [simpl; auto|].
  destruct (fetch _ _ _ _); [|simpl; auto].
  destruct (decide _); simpl; auto.
Qed.

End WakeProperties.

Lemma read_bytes_ext (m m' : gmap Z Z) (n : nat) : forall addr : Z,
  (forall i : Z, 0 <= i < Z.of_nat n -> m !! (addr + i) = m' !! (addr + i)) ->
  read_bytes m addr n = read_bytes m' addr n.
Proof.
  induction n as [|n IH]; intros addr Hsame; [reflexivity|].
  cbn [read_bytes].
  pose proof (Hsame 0 ltac:(lia)) as H0. rewrite Z.add_0_r in H0.
  rewrite H0. rewrite (IH (addr + 1)); [reflexivity|].
  intros i Hi. replace (addr + 1 + i) with (addr + (1 + i)) by lia.
  apply Hsame. lia.
Qed.

(** X11.  [fetch<T>] depends on the [sizeof(T)] bytes at [ptr] in the
    memory of the configured target and on nothing else: on the
    accelerator it never looks at host memory, and on the host never at
    device memory. *)
Theorem fetch_reads_only_its_bytes `{Declarations} (pr : Program)
    (M M' : Machine) (T : scalar_type) (ptr : Z) :
  (forall i : Z, 0 <= i < Z.of_nat (sizeof T) ->
     if decide (arch (config pr) = cuda)
     then device_mem M !! (ptr + i) = device_mem M' !! (ptr + i)
     else host_mem M !! (ptr + i) = host_mem M' !! (ptr + i)) ->
  fetch pr M T ptr = fetch pr M' T ptr.
Proof.
  unfold fetch, cudaMemcpy_DeviceToHost, dereference.
  destruct (decide (arch (config pr) = cuda)); intros Hsame.
  - destruct TLANG_WITH_CUDA; [|reflexivity].
    rewrite (read_bytes_ext (device_mem M) (device_mem M') _ ptr Hsame).
    reflexivity.
  - rewrite (read_bytes_ext (host_mem M) (host_mem M') _ ptr Hsame).
    reflexivity.
Qed.

(** ** The further properties at concrete inputs *)

Lemma allocate_touches_only_back_witness :
  let p2 := pool (@run host_build _ host_ops
                    [Allocate 64 16; Allocate 2097152 16] fresh_process) in
  allocators (@allocate host_build _ host_ops 64 16 p2).1 !! 0%nat
  = allocators p2 !! 0%nat.
Proof.
  intros p2.
  pose proof (@allocate_touches_only_back host_build _ host_ops p2 64 16)
    as (_ & _ & _ & Hkeep).
  apply Hkeep. vm_compute. lia.
Defined.


Lemma lifecycle_flags_agree_witness :
  let s := @run host_build _ host_ops
             [SetQueue 1000; RequestTermination; Wake (host_queue 1000 0)]
             fresh_process in
  daemon_thread s = Finished /\ terminating (pool s) = true /\
  terminating (pool (@run host_build _ host_ops [SetQueue 0] s)) = true.
Proof.
  intros s.
  pose proof (@lifecycle_flags_agree host_build _ host_ops host_program
                [SetQueue 1000; RequestTermination; Wake (host_queue 1000 0)]
                [SetQueue 0]) as (Hfin & Hterm & Hstay).
  assert (Hk : killed (pool s) = true) by reflexivity.
  split; [apply Hfin; exact Hk|].
  split; [apply Hterm; exact Hk|].
  apply Hstay. apply Hterm. exact Hk.
Defined.

Lemma only_a_reading_wake_advances_witness :
  exists M tail,
    Wake (host_queue 1000 3) = Wake M /\
    queue (pool installed_process) <> 0 /\
    terminating (pool installed_process) = false /\
    @fetch host_build (prog (pool installed_process)) M
      (@tail_type host_build)
      (queue (pool installed_process) + @tail_offset host_build)
    = Value tail /\
    processed_tail (pool installed_process) < tail /\
    processed_tail
      (pool (@step host_build _ host_ops installed_process
               (Wake (host_queue 1000 3))))
    = processed_tail (pool installed_process) + 1.
Proof.
  apply (@only_a_reading_wake_advances host_build _ host_ops
           installed_process (Wake (host_queue 1000 3))).
  vm_compute. discriminate.
Defined.

Lemma wakes_catch_up_witness :
  processed_tail
    (pool (@run host_build _ host_ops
             (map Wake (replicate 5 (host_queue 1000 3))) installed_process))
  = 3.
Proof.
  pose proof (@wakes_catch_up host_build _ host_ops
                (replicate 5 (host_queue 1000 3)) installed_process 3
                eq_refl eq_refl ltac:(vm_compute; discriminate) eq_refl
                ltac:(repeat constructor)) as (Hpt & _).
  rewrite Hpt. vm_compute. reflexivity.
Defined.

Lemma processed_tail_fits_tail_type_witness :
  in_range int32_t
    (processed_tail
       (pool (@run host_build _ host_ops swap_execution fresh_process))).
Proof.
  apply (@processed_tail_fits_tail_type host_build _ host_ops host_program
           swap_execution).
  vm_compute. lia.
Defined.

Lemma wake_without_cuda_support_aborts_witness :
  let s : @process BufferHandle :=
    @step host_build _ host_ops (boot cuda_program) (SetQueue 1000) in
  aborted (@step host_build _ host_ops s (Wake (device_queue 1000 3)))
  = Some NotImplemented.
Proof.
  intros s.
  apply (@wake_without_cuda_support_aborts host_build _ host_ops
           (device_queue 1000 3) s []); try reflexivity.
  vm_compute. discriminate.
Defined.

Lemma late_set_queue_releases_terminate_witness :
  (@terminate host_build _ host_ops
     (map Wake [host_queue 1000 0; host_queue 1000 0]
      ++ SetQueue 1000 :: Wake (host_queue 1000 0) :: [])
     fresh_process).2 = Returns.
Proof.
  apply (@late_set_queue_releases_terminate host_build _ host_ops
           host_program [host_queue 1000 0; host_queue 1000 0] 1000
           (host_queue 1000 0) []).
  lia.
Defined.

Lemma terminate_returns_after_one_wake_witness :
  let r := @terminate host_build _ host_ops
             [Wake (host_queue 1000 5); Wake (host_queue 1000 5)]
             installed_process in
  r.2 = Returns /\ killed (pool r.1) = true /\
  processed_tail (pool r.1) = 0.
Proof.
  pose proof (@terminate_returns_after_one_wake host_build _ host_ops
                (host_queue 1000 5) [Wake (host_queue 1000 5)]
                installed_process ltac:(vm_compute; discriminate)
                eq_refl eq_refl eq_refl)
    as (Hret & Hk & _ & _ & _ & _ & Hpt & _).
  split; [exact Hret|]. split; [exact Hk|exact Hpt].
Defined.

Lemma fetch_reads_only_its_bytes_witness :
  @fetch host_build host_program
    {| host_mem := <[5000 := 7]> (store32 1000 3 ∅);
       device_mem := store32 1000 9 ∅ |} int32_t 1000
  = @fetch host_build host_program (host_queue 1000 3) int32_t 1000.
Proof.
  apply (@fetch_reads_only_its_bytes host_build host_program).
  intros i Hi. change (Z.of_nat (sizeof int32_t)) with 4 in Hi.
  destruct (decide _) as [E|_]; [discriminate E|].
  cbn [host_mem host_queue]. rewrite lookup_insert_ne by lia. reflexivity.
Defined.
